(** * Device hints of mimiker: the generated table [drv/device_hints.c]

    The translation unit declares one struct type, [devhint_t], and one
    object with static storage duration, the array [hints], given by a list
    of brace-enclosed initializers with designators.  It holds no function.

    The embedding keeps the two levels of the C text apart:
    - the initializer list as it is written ([hints_src]: the designators in
      their source order, with the integer constants they list), and
    - the object that C initialization builds from it ([hints]: every member
      of every element, with the members and array elements the text leaves
      out set to zero).

    Integers are [Z]; a value stored in a [uint64_t] or [uint32_t] member is
    reduced modulo 2^64 or 2^32, as the conversion of C does.  A [char*]
    member is [option string]: [None] is the null pointer. *)

From Stdlib Require Import ZArith.
From stdpp Require Import base tactics option list numbers strings.

Local Open Scope Z_scope.

(** ** Integer types of [<stdint.h>] *)

Definition UINT64_MOD : Z := 2 ^ 64.
Definition UINT32_MOD : Z := 2 ^ 32.

Definition to_uint64 (v : Z) : Z := v mod UINT64_MOD.
Definition to_uint32 (v : Z) : Z := v mod UINT32_MOD.

Definition is_uint64 (v : Z) : Prop := 0 <= v < UINT64_MOD.
Definition is_uint32 (v : Z) : Prop := 0 <= v < UINT32_MOD.

(** ** The struct [devhint_t] *)

(** The bound of the two array members, the [32] of [uint64_t iomem[32]]
    and [uint64_t ioport[32]]. *)
Definition RANGE_SLOTS : nat := 32.

Record devhint_t : Type := mk_devhint {
  path : option string;   (* char* path *)
  iomem : list Z;         (* uint64_t iomem[32] *)
  ioport : list Z;        (* uint64_t ioport[32] *)
  irq : Z                 (* uint32_t irq *)
}.

(** ** Initializers, as the source writes them *)

(** One designated initializer of a [devhint_t]: [.iomem = {...}],
    [.ioport = {...}], [.irq = c] or [.path = "..."]. *)
Inductive member_init : Type :=
| init_iomem (vs : list Z)
| init_ioport (vs : list Z)
| init_irq (v : Z)
| init_path (s : string).

(** The initializer list of [hints], element by element and designator by
    designator in the order of the file. *)
Definition hints_src : list (list member_init) :=
  [ [ init_iomem [1016; 1023; 760; 767];
      init_irq 0x4;
      init_path "/rootdev/pci@0/isab@0/isa@0/uart@0"%string ];
    [ init_ioport [96; 96; 100; 100];
      init_iomem [760; 767];
      init_irq 0x3;
      init_path "/rootdev/pci@0/isab@0/isa@0/uart@1"%string ] ].

(** ** Initialization *)

(** An array of [n] [uint64_t] initialized by the list [vs]: the listed
    constants fill the first elements in order and the remaining ones are
    zero.  More initializers than elements is a constraint violation: no
    object is built. *)
Definition array_init (n : nat) (vs : list Z) : option (list Z) :=
  if decide (length vs ≤ n)%nat
  then Some ((to_uint64 <$> vs) ++ replicate (n - length vs) 0)
  else None.

(** A [devhint_t] none of whose members has an initializer: static storage
    sets pointers to null and integers to zero. *)
Definition devhint_zero : devhint_t :=
  {| path := None;
     iomem := replicate RANGE_SLOTS 0;
     ioport := replicate RANGE_SLOTS 0;
     irq := 0 |}.

(** One designator initializes its member whole, overriding what an earlier
    designator of the same member gave it. *)
Definition member_apply (r : devhint_t) (d : member_init) : option devhint_t :=
  match d with
  | init_iomem vs =>
      a ← array_init RANGE_SLOTS vs;
      Some {| path := path r; iomem := a; ioport := ioport r; irq := irq r |}
  | init_ioport vs =>
      a ← array_init RANGE_SLOTS vs;
      Some {| path := path r; iomem := iomem r; ioport := a; irq := irq r |}
  | init_irq v =>
      Some {| path := path r; iomem := iomem r; ioport := ioport r;
              irq := to_uint32 v |}
  | init_path s =>
      Some {| path := Some s; iomem := iomem r; ioport := ioport r;
              irq := irq r |}
  end.

(** The designators of one element are taken in list order. *)
Fixpoint members_apply (r : devhint_t) (ds : list member_init)
  : option devhint_t :=
  match ds with
  | [] => Some r
  | d :: ds' => r' ← member_apply r d; members_apply r' ds'
  end.

Definition struct_init (ds : list member_init) : option devhint_t :=
  members_apply devhint_zero ds.

(** [devhint_t hints[] = { ... }]: the array has one element per
    brace-enclosed initializer. *)
Definition table_init (src : list (list member_init))
  : option (list devhint_t) :=
  mapM struct_init src.

(** The object [hints]. *)
Definition hints : list devhint_t := default [] (table_init hints_src).

(** ** What an initializer writes into a member *)

(** The constants the source lists for [iomem]: those of the last
    designator of that member, none when the member has no designator. *)
Definition written_iomem (ds : list member_init) : list Z :=
  foldl (λ w d, match d with init_iomem vs => vs | _ => w end) [] ds.

Definition written_ioport (ds : list member_init) : list Z :=
  foldl (λ w d, match d with init_ioport vs => vs | _ => w end) [] ds.

(** The constant the source gives [irq], if it gives one. *)
Definition written_irq (ds : list member_init) : option Z :=
  foldl (λ w d, match d with init_irq v => Some v | _ => w end) None ds.

(** The scalars of an array member up to its last one that is not zero. *)
Fixpoint used (a : list Z) : list Z :=
  match a with
  | [] => []
  | v :: t =>
      match used t with
      | [] => if bool_decide (v = 0) then [] else [v]
      | u => v :: u
      end
  end.

(** ** Address ranges *)

(** A range is a (start, end) pair; an array member lists ranges as
    consecutive scalars. *)
Definition range : Type := Z * Z.

Fixpoint pairs (l : list Z) : list range :=
  match l with
  | a :: b :: t => (a, b) :: pairs t
  | _ => []
  end.

Definition scalars (ps : list range) : list Z :=
  ps ≫= λ p, [p.1; p.2].

Definition is_padding (p : range) : bool :=
  bool_decide (p = (0, 0)).

(** The pairs of an array member up to its last pair that is not zero
    padding. *)
Fixpoint strip_padding (ps : list range) : list range :=
  match ps with
  | [] => []
  | p :: t =>
      match strip_padding t with
      | [] => if is_padding p then [] else [p]
      | r => p :: r
      end
  end.

Definition ranges (a : list Z) : list range := strip_padding (pairs a).

Definition range_wf (p : range) : Prop := p.1 <= p.2.

#[global] Instance is_uint64_dec v : Decision (is_uint64 v).
Proof. unfold is_uint64. apply _. Defined.

#[global] Instance is_uint32_dec v : Decision (is_uint32 v).
Proof. unfold is_uint32. apply _. Defined.

#[global] Instance range_wf_dec p : Decision (range_wf p).
Proof. unfold range_wf. apply _. Defined.

(** Two inclusive intervals share an address. *)
Definition range_overlap (p q : range) : bool :=
  (p.1 <=? q.2) && (q.1 <=? p.2).

(** No iomem range of [r1] shares an address with one of [r2]. *)
Definition iomem_disjoint (r1 r2 : devhint_t) : Prop :=
  ∀ p q, p ∈ ranges (iomem r1) → q ∈ ranges (iomem r2) →
         range_overlap p q = false.

(** ** Reading the object *)

(** The translation unit defines no function: the object is reached
    through its external name.  A read is an lvalue conversion on the store
    that holds [hints]; an index out of bounds designates no object. *)
Definition store : Type := list devhint_t.

Inductive lvalue : Type :=
| lv_elem (i : nat)              (* hints[i] *)
| lv_path (i : nat)              (* hints[i].path *)
| lv_iomem (i j : nat)           (* hints[i].iomem[j] *)
| lv_ioport (i j : nat)          (* hints[i].ioport[j] *)
| lv_irq (i : nat).              (* hints[i].irq *)

Inductive rvalue : Type :=
| rv_struct (r : devhint_t)
| rv_ptr (s : option string)
| rv_u64 (v : Z)
| rv_u32 (v : Z).

Definition load (st : store) (lv : lvalue) : option rvalue :=
  match lv with
  | lv_elem i => r ← st !! i; Some (rv_struct r)
  | lv_path i => r ← st !! i; Some (rv_ptr (path r))
  | lv_iomem i j => r ← st !! i; v ← iomem r !! j; Some (rv_u64 v)
  | lv_ioport i j => r ← st !! i; v ← ioport r !! j; Some (rv_u64 v)
  | lv_irq i => r ← st !! i; Some (rv_u32 (irq r))
  end.


(** ** Accessing the object *)


(** A value of type [devhint_t]: both arrays have their 32 elements, every
    scalar fits its type. *)
Definition devhint_typed (r : devhint_t) : Prop :=
  (length (iomem r) = RANGE_SLOTS ∧ Forall is_uint64 (iomem r))
  ∧ (length (ioport r) = RANGE_SLOTS ∧ Forall is_uint64 (ioport r))
  ∧ is_uint32 (irq r).

#[global] Instance devhint_typed_dec r : Decision (devhint_typed r).
Proof. unfold devhint_typed. apply _. Defined.

(** The element an lvalue lies in. *)
Definition lv_index (lv : lvalue) : nat :=
  match lv with
  | lv_elem i | lv_path i | lv_iomem i _ | lv_ioport i _ | lv_irq i => i
  end.

(** Two lvalues designate objects that share storage: they lie in the same
    element, and one is the whole element or both are the same member (the
    same slot, for an array member). *)
Definition overlaps (a b : lvalue) : bool :=
  bool_decide (lv_index a = lv_index b) &&
  match a, b with
  | lv_elem _, _ | _, lv_elem _ => true
  | lv_path _, lv_path _ => true
  | lv_irq _, lv_irq _ => true
  | lv_iomem _ j, lv_iomem _ j' => bool_decide (j = j')
  | lv_ioport _ j, lv_ioport _ j' => bool_decide (j = j')
  | _, _ => false
  end.

(** The simple assignment [lv = v].  It needs a modifiable lvalue that
    designates an object and a value of the lvalue's type; the value is
    converted to the type of the lvalue and replaces the stored one. *)
Definition assign (const : bool) (st : store) (lv : lvalue) (v : rvalue)
  : option store :=
  if const then None else
  match lv, v with
  | lv_elem i, rv_struct r' =>
      _ ← st !! i;
      if decide (devhint_typed r') then Some (<[i := r']> st) else None
  | lv_path i, rv_ptr s =>
      r ← st !! i;
      Some (<[i := {| path := s; iomem := iomem r; ioport := ioport r;
                      irq := irq r |}]> st)
  | lv_iomem i j, rv_u64 x =>
      r ← st !! i; _ ← iomem r !! j;
      Some (<[i := {| path := path r;
                      iomem := <[j := to_uint64 x]> (iomem r);
                      ioport := ioport r; irq := irq r |}]> st)
  | lv_ioport i j, rv_u64 x =>
      r ← st !! i; _ ← ioport r !! j;
      Some (<[i := {| path := path r; iomem := iomem r;
                      ioport := <[j := to_uint64 x]> (ioport r);
                      irq := irq r |}]> st)
  | lv_irq i, rv_u32 x =>
      r ← st !! i;
      Some (<[i := {| path := path r; iomem := iomem r; ioport := ioport r;
                      irq := to_uint32 x |}]> st)
  | _, _ => None
  end.

(** An access to the object: the read of an lvalue or an assignment to
    one. *)
Inductive access : Type :=
| acc_read (lv : lvalue)
| acc_assign (lv : lvalue) (v : rvalue).

(** One access from a store: its value and the store after it.  A read
    yields the stored value (none where the lvalue designates no object) and
    leaves the store; an assignment yields the value of its left operand
    after the store. *)
Definition access_step (const : bool) (a : access) (st : store)
  : option (option rvalue * store) :=
  match a with
  | acc_read lv => Some (load st lv, st)
  | acc_assign lv v => st' ← assign const st lv v; Some (load st' lv, st')
  end.

(** A sequence of accesses, in order: the values they yield and the final
    store. *)
Fixpoint run (const : bool) (p : list access) (st : store)
  : option (list (option rvalue) * store) :=
  match p with
  | [] => Some ([], st)
  | a :: p' =>
      '(v, st1) ← access_step const a st;
      '(vs, st2) ← run const p' st1;
      Some (v :: vs, st2)
  end.

Definition is_read (a : access) : Prop :=
  match a with acc_read _ => True | acc_assign _ _ => False end.

(** The access assigns to nothing that shares storage with [lv]. *)
Definition leaves (lv : lvalue) (a : access) : Prop :=
  match a with
  | acc_read _ => True
  | acc_assign lv' _ => overlaps lv' lv = false
  end.

#[global] Instance is_read_dec a : Decision (is_read a).
Proof. destruct a; simpl; apply _. Defined.

#[global] Instance leaves_dec lv a : Decision (leaves lv a).
Proof. destruct a; simpl; apply _. Defined.

(** ** Members and their designators *)

(** The members of [devhint_t]. *)
Inductive member : Type := m_path | m_iomem | m_ioport | m_irq.

#[global] Instance member_eq_dec : EqDecision member.
Proof. solve_decision. Defined.

(** The member a designator names. *)
Definition member_of (d : member_init) : member :=
  match d with
  | init_iomem _ => m_iomem
  | init_ioport _ => m_ioport
  | init_irq _ => m_irq
  | init_path _ => m_path
  end.

(** ** The records of the specification *)

(** The two records as section 6 of the specification lists them, member by
    member: the path, the iomem pairs, the ioport pairs and the irq.  The
    pairs are laid out in the 32 scalars of the array, zero afterwards.
    They follow the specification, not the source; [hints] is compared with
    them. *)
Definition spec_record1 : devhint_t :=
  {| path := Some "/rootdev/pci@0/isab@0/isa@0/uart@0"%string;
     iomem := scalars [(1016, 1023); (760, 767)] ++ replicate 28 0;
     ioport := replicate 32 0;
     irq := 4 |}.

Definition spec_record2 : devhint_t :=
  {| path := Some "/rootdev/pci@0/isab@0/isa@0/uart@1"%string;
     iomem := scalars [(760, 767)] ++ replicate 30 0;
     ioport := scalars [(96, 96); (100, 100)] ++ replicate 28 0;
     irq := 3 |}.

(** * Properties *)

(** ** Integer conversions *)

Lemma to_uint64_range v : is_uint64 (to_uint64 v).
Proof. unfold is_uint64, to_uint64, UINT64_MOD. apply Z.mod_pos_bound. lia. Qed.

Lemma to_uint32_range v : is_uint32 (to_uint32 v).
Proof. unfold is_uint32, to_uint32, UINT32_MOD. apply Z.mod_pos_bound. lia. Qed.

Lemma to_uint64_id v : is_uint64 v → to_uint64 v = v.
Proof. unfold is_uint64, to_uint64. intros H. by apply Z.mod_small. Qed.

Lemma to_uint32_id v : is_uint32 v → to_uint32 v = v.
Proof. unfold is_uint32, to_uint32. intros H. by apply Z.mod_small. Qed.

Lemma zero_uint64 : is_uint64 0.
Proof. unfold is_uint64, UINT64_MOD. lia. Qed.

(** ** Array initialization *)

Section array_init.
Context (n : nat) (vs a : list Z).
Hypothesis Hinit : array_init n vs = Some a.

Lemma array_init_fits : (length vs ≤ n)%nat.
Proof using Hinit. unfold array_init in Hinit. by case_decide. Qed.

Lemma array_init_eq :
  a = (to_uint64 <$> vs) ++ replicate (n - length vs) 0.
Proof using Hinit.
  unfold array_init in Hinit. case_decide; congruence.
Qed.

Lemma array_init_length : length a = n.
Proof using Hinit.
  rewrite array_init_eq, length_app, length_fmap, length_replicate.
  pose proof array_init_fits. lia.
Qed.

Lemma array_init_written j v :
  vs !! j = Some v → a !! j = Some (to_uint64 v).
Proof using Hinit.
  intros Hj. rewrite array_init_eq.
  apply lookup_app_l_Some. by rewrite list_lookup_fmap, Hj.
Qed.

Lemma array_init_padding j :
  (length vs ≤ j < n)%nat → a !! j = Some 0.
Proof using Hinit.
  intros Hj. rewrite array_init_eq.
  rewrite lookup_app_r by (rewrite length_fmap; lia).
  apply lookup_replicate_2. rewrite length_fmap. lia.
Qed.

Lemma array_init_uint64 : Forall is_uint64 a.
Proof using Hinit.
  rewrite array_init_eq. apply Forall_app. split.
  - apply Forall_fmap, Forall_forall. intros v _. apply to_uint64_range.
  - apply Forall_replicate, zero_uint64.
Qed.
End array_init.

Lemma array_init_nil n : array_init n [] = Some (replicate n 0).
Proof.
  unfold array_init. case_decide; simpl in *; [|lia].
  by rewrite Nat.sub_0_r.
Qed.

(** ** Struct initialization *)

(** Each array member of the built struct is the array initialization of
    what the designators write into it. *)
Lemma members_apply_iomem ds : ∀ r r' w,
  array_init RANGE_SLOTS w = Some (iomem r) →
  members_apply r ds = Some r' →
  array_init RANGE_SLOTS
    (foldl (λ w d, match d with init_iomem vs => vs | _ => w end) w ds)
  = Some (iomem r').
Proof.
  induction ds as [|d ds IH]; intros r r' w Hw Hr; simpl in *.
  - by simplify_eq.
  - apply bind_Some in Hr as (r1 & Hd & Hr).
    apply (IH r1 r'); [|done].
    destruct d; simpl in *; simplify_option_eq; done.
Qed.

Lemma members_apply_ioport ds : ∀ r r' w,
  array_init RANGE_SLOTS w = Some (ioport r) →
  members_apply r ds = Some r' →
  array_init RANGE_SLOTS
    (foldl (λ w d, match d with init_ioport vs => vs | _ => w end) w ds)
  = Some (ioport r').
Proof.
  induction ds as [|d ds IH]; intros r r' w Hw Hr; simpl in *.
  - by simplify_eq.
  - apply bind_Some in Hr as (r1 & Hd & Hr).
    apply (IH r1 r'); [|done].
    destruct d; simpl in *; simplify_option_eq; done.
Qed.

Lemma members_apply_irq ds : ∀ r r',
  is_uint32 (irq r) → members_apply r ds = Some r' → is_uint32 (irq r').
Proof.
  induction ds as [|d ds IH]; intros r r' Hq Hr; simpl in *.
  - by simplify_eq.
  - apply bind_Some in Hr as (r1 & Hd & Hr).
    apply (IH r1 r'); [|done].
    destruct d; simpl in *; simplify_option_eq; auto using to_uint32_range.
Qed.

Lemma struct_init_iomem ds r :
  struct_init ds = Some r →
  array_init RANGE_SLOTS (written_iomem ds) = Some (iomem r).
Proof.
  intros Hr. apply (members_apply_iomem ds devhint_zero); [|done].
  apply array_init_nil.
Qed.

Lemma struct_init_ioport ds r :
  struct_init ds = Some r →
  array_init RANGE_SLOTS (written_ioport ds) = Some (ioport r).
Proof.
  intros Hr. apply (members_apply_ioport ds devhint_zero); [|done].
  apply array_init_nil.
Qed.

Lemma struct_init_irq ds r : struct_init ds = Some r → is_uint32 (irq r).
Proof.
  apply members_apply_irq. unfold is_uint32, UINT32_MOD. simpl. lia.
Qed.

(** ** Ranges *)

Lemma scalars_length ps : length (scalars ps) = (2 * length ps)%nat.
Proof.
  induction ps as [|p ps IH]; [done|].
  change (scalars (p :: ps)) with (p.1 :: p.2 :: scalars ps).
  simpl. rewrite IH. lia.
Qed.

(** An array of an even number of scalars is read back whole from its
    pairs: no scalar is left without a partner. *)
Lemma scalars_pairs_half k : ∀ l : list Z,
  length l = (2 * k)%nat → scalars (pairs l) = l.
Proof.
  induction k as [|k IH]; intros l Hl.
  - by destruct l.
  - destruct l as [|x [|y l]]; simpl in Hl; try lia.
    change (scalars (pairs (x :: y :: l))) with (x :: y :: scalars (pairs l)).
    f_equal. f_equal. apply IH. lia.
Qed.

Lemma scalars_pairs (l : list Z) :
  Nat.Even (length l) → scalars (pairs l) = l.
Proof. intros [k Hk]. by apply (scalars_pairs_half k). Qed.

(** ** The table *)

(** Initialization of [hints] from its initializer list succeeds. *)
Lemma hints_built : table_init hints_src = Some hints.
Proof. reflexivity. Qed.

Lemma hints_value : hints = [spec_record1; spec_record2].
Proof. reflexivity. Qed.

(** The element of [hints] at an index is built from the initializer at
    that index. *)
Lemma hints_lookup i ds r :
  hints_src !! i = Some ds → hints !! i = Some r → struct_init ds = Some r.
Proof.
  intros Hs Hr. pose proof hints_built as Hb.
  apply mapM_Some in Hb.
  exact (Forall2_lookup_lr _ _ _ _ _ _ Hb Hs Hr).
Qed.

Lemma hints_src_length : length hints_src = length hints.
Proof. exact (length_mapM _ _ _ hints_built). Qed.

(** Case analysis on an index into the two-element table. *)
Ltac table_cases i :=
  destruct i as [|[|i]]; simpl in *; simplify_eq; simpl in *.

(** A closed decidable goal, settled by evaluating its decision. *)
Ltac by_eval :=
  match goal with
  | |- ?P => apply (bool_decide_unpack P); vm_compute; exact I
  end.

(** ** Accesses *)








(** With a [const]-qualified object no assignment is well-formed. *)
Lemma run_const p st vs st' :
  run true p st = Some (vs, st') → Forall is_read p ∧ st' = st.
Proof.
  revert st vs st'.
  induction p as [|a p IH]; intros st vs st' Hrun; simpl in Hrun.
  - by simplify_eq.
  - destruct a as [lv|lv v]; [|done]. simpl in Hrun.
    destruct (run true p st) as [[vs1 st2]|] eqn:Hr; [|done].
    simpl in Hrun. simplify_eq. destruct (IH _ _ _ Hr) as [Hp ->].
    split; [by constructor|done].
Qed.

(** * The claims *)

(** C1: the table [hints] has exactly two records, in order the one whose
    path is /rootdev/pci@0/isab@0/isa@0/uart@0 and the one whose path is
    /rootdev/pci@0/isab@0/isa@0/uart@1, and every member of both has the
    value section 6 of the specification gives. *)
Theorem hints_two_records :
  table_init hints_src = Some hints ∧
  length hints = 2%nat ∧
  path <$> hints = [ Some "/rootdev/pci@0/isab@0/isa@0/uart@0"%string;
                     Some "/rootdev/pci@0/isab@0/isa@0/uart@1"%string ] ∧
  hints = [spec_record1; spec_record2].
Proof. repeat split. Qed.

(** C2: in the first record of [hints] (path .../uart@0) the iomem ranges
    are exactly (1016,1023), (760,767), both as the source writes them and
    as the array holds them; no ioport range is written and every one of
    the 32 ioport slots is zero; irq is 4. *)
Theorem hints_record1 :
  ∃ ds r,
    hints_src !! 0%nat = Some ds ∧ hints !! 0%nat = Some r ∧
    path r = Some "/rootdev/pci@0/isab@0/isa@0/uart@0"%string ∧
    pairs (written_iomem ds) = [(1016, 1023); (760, 767)] ∧
    ranges (iomem r) = [(1016, 1023); (760, 767)] ∧
    iomem r = [1016; 1023; 760; 767] ++ replicate 28 0 ∧
    written_ioport ds = [] ∧
    ranges (ioport r) = [] ∧
    length (ioport r) = 32%nat ∧
    Forall (λ v, v = 0) (ioport r) ∧
    irq r = 4.
Proof.
  eexists _, spec_record1. split; [reflexivity|].
  split; [by rewrite hints_value|].
  repeat split. by apply Forall_replicate.
Qed.

(** C3: in the second record of [hints] (path .../uart@1) the iomem ranges
    are exactly (760,767), the ioport ranges are exactly (96,96),
    (100,100), both as the source writes them and as the arrays hold them;
    irq is 3. *)
Theorem hints_record2 :
  ∃ ds r,
    hints_src !! 1%nat = Some ds ∧ hints !! 1%nat = Some r ∧
    path r = Some "/rootdev/pci@0/isab@0/isa@0/uart@1"%string ∧
    pairs (written_iomem ds) = [(760, 767)] ∧
    ranges (iomem r) = [(760, 767)] ∧
    iomem r = [760; 767] ++ replicate 30 0 ∧
    pairs (written_ioport ds) = [(96, 96); (100, 100)] ∧
    ranges (ioport r) = [(96, 96); (100, 100)] ∧
    ioport r = [96; 96; 100; 100] ++ replicate 28 0 ∧
    irq r = 3.
Proof.
  eexists _, spec_record2. split; [reflexivity|].
  split; [by rewrite hints_value|].
  repeat split.
Qed.

(** C4: the path of every record of [hints] is a non-empty string (not the
    null pointer, not the empty string), and two records at distinct
    indices have different paths. *)
Theorem hints_path_key (i j : nat) (ri rj : devhint_t) :
  hints !! i = Some ri → hints !! j = Some rj →
  (∃ s, path ri = Some s ∧ s ≠ ""%string) ∧
  (i ≠ j → path ri ≠ path rj).
Proof.
  rewrite hints_value. intros Hi Hj.
  table_cases i; table_cases j; (split; [by eexists|]); try done.
Qed.

Lemma hints_path_key_witness :
  hints !! 0%nat = Some spec_record1 ∧ hints !! 1%nat = Some spec_record2 ∧
  ((∃ s, path spec_record1 = Some s ∧ s ≠ ""%string) ∧
   (0%nat ≠ 1%nat → path spec_record1 ≠ path spec_record2)).
Proof.
  split; [reflexivity|]. split; [reflexivity|].
  apply (hints_path_key 0 1); reflexivity.
Defined.

(** C5: in every record of [hints] the iomem and the ioport member each
    hold exactly 32 scalars, each an unsigned 64-bit value; what the source
    writes fits these 32 slots (16 pairs); and every slot after the last
    real range pair is zero, where the last real pair ends with the last
    constant the source writes and equally with the last pair of the array
    that is not padding. *)
Theorem hints_arrays_fixed (i : nat) (ds : list member_init) (r : devhint_t) :
  hints_src !! i = Some ds → hints !! i = Some r →
  (length (iomem r) = 32%nat ∧ Forall is_uint64 (iomem r)) ∧
  (length (ioport r) = 32%nat ∧ Forall is_uint64 (ioport r)) ∧
  (length (pairs (written_iomem ds)) ≤ 16)%nat ∧
  (length (pairs (written_ioport ds)) ≤ 16)%nat ∧
  length (written_iomem ds) = (2 * length (ranges (iomem r)))%nat ∧
  length (written_ioport ds) = (2 * length (ranges (ioport r)))%nat ∧
  (∀ k, (2 * length (ranges (iomem r)) ≤ k < 32)%nat → iomem r !! k = Some 0) ∧
  (∀ k, (2 * length (ranges (ioport r)) ≤ k < 32)%nat → ioport r !! k = Some 0).
Proof.
  intros Hs Hr. pose proof (hints_lookup _ _ _ Hs Hr) as Hb.
  pose proof (struct_init_iomem _ _ Hb) as Hm.
  pose proof (struct_init_ioport _ _ Hb) as Hp.
  assert (length (written_iomem ds) = (2 * length (ranges (iomem r)))%nat
          ∧ length (written_ioport ds) = (2 * length (ranges (ioport r)))%nat
          ∧ (length (pairs (written_iomem ds)) ≤ 16)%nat
          ∧ (length (pairs (written_ioport ds)) ≤ 16)%nat)
    as (Em & Ep & Cm & Cp).
  { clear Hb Hm Hp. rewrite hints_value in Hr.
    table_cases i; repeat split; lia. }
  split; [split; [exact (array_init_length _ _ _ Hm)
                 | exact (array_init_uint64 _ _ _ Hm)]|].
  split; [split; [exact (array_init_length _ _ _ Hp)
                 | exact (array_init_uint64 _ _ _ Hp)]|].
  repeat (split; [done|]). split; intros k Hk.
  - apply (array_init_padding _ _ _ Hm). rewrite Em. exact Hk.
  - apply (array_init_padding _ _ _ Hp). rewrite Ep. exact Hk.
Qed.

Lemma hints_arrays_fixed_witness :
  hints_src !! 1%nat
    = Some [ init_ioport [96; 96; 100; 100]; init_iomem [760; 767];
             init_irq 3;
             init_path "/rootdev/pci@0/isab@0/isa@0/uart@1" ] ∧
  hints !! 1%nat = Some spec_record2 ∧
  (length (iomem spec_record2) = 32%nat
   ∧ Forall is_uint64 (iomem spec_record2)) ∧
  (length (ioport spec_record2) = 32%nat
   ∧ Forall is_uint64 (ioport spec_record2)) ∧
  (length (pairs [760; 767]%Z) ≤ 16)%nat ∧
  (length (pairs [96; 96; 100; 100]%Z) ≤ 16)%nat ∧
  length [760; 767] = (2 * length (ranges (iomem spec_record2)))%nat ∧
  length [96; 96; 100; 100]
    = (2 * length (ranges (ioport spec_record2)))%nat ∧
  (∀ k, (2 * length (ranges (iomem spec_record2)) ≤ k < 32)%nat →
        iomem spec_record2 !! k = Some 0) ∧
  (∀ k, (2 * length (ranges (ioport spec_record2)) ≤ k < 32)%nat →
        ioport spec_record2 !! k = Some 0).
Proof.
  split; [reflexivity|]. split; [reflexivity|].
  exact (hints_arrays_fixed 1 _ spec_record2 eq_refl eq_refl).
Defined.

(** C6: in every record of [hints] the number of scalars the source writes
    into iomem is even, and so is the number written into ioport; the
    written scalars are whole (start, end) pairs, none left without its
    end; and the same count is read from the array itself, as the scalars
    up to its last one that is not zero. *)
Theorem hints_pairs_even (i : nat) (ds : list member_init) (r : devhint_t) :
  hints_src !! i = Some ds → hints !! i = Some r →
  (Nat.Even (length (written_iomem ds))
   ∧ scalars (pairs (written_iomem ds)) = written_iomem ds
   ∧ used (iomem r) = written_iomem ds) ∧
  (Nat.Even (length (written_ioport ds))
   ∧ scalars (pairs (written_ioport ds)) = written_ioport ds
   ∧ used (ioport r) = written_ioport ds).
Proof.
  intros Hs Hr.
  assert (Nat.Even (length (written_iomem ds))
          ∧ Nat.Even (length (written_ioport ds))
          ∧ used (iomem r) = written_iomem ds
          ∧ used (ioport r) = written_ioport ds) as (Em & Ep & Um & Up).
  { rewrite hints_value in Hr.
    table_cases i; repeat split;
      first [ by exists 0%nat | by exists 1%nat | by exists 2%nat ]. }
  auto using scalars_pairs.
Qed.

Lemma hints_pairs_even_witness :
  hints_src !! 0%nat
    = Some [ init_iomem [1016; 1023; 760; 767]; init_irq 4;
             init_path "/rootdev/pci@0/isab@0/isa@0/uart@0" ] ∧
  hints !! 0%nat = Some spec_record1 ∧
  (Nat.Even (length [1016; 1023; 760; 767])
   ∧ scalars (pairs [1016; 1023; 760; 767]) = [1016; 1023; 760; 767]
   ∧ used (iomem spec_record1) = [1016; 1023; 760; 767]) ∧
  (Nat.Even (length (@nil Z))
   ∧ scalars (pairs []) = []
   ∧ used (ioport spec_record1) = []).
Proof.
  split; [reflexivity|]. split; [reflexivity|].
  exact (hints_pairs_even 0 _ spec_record1 eq_refl eq_refl).
Defined.




(** C8: in every record of [hints] the irq is an unsigned 32-bit value and
    every iomem and ioport scalar is an unsigned 64-bit value; the constants
    of the source are themselves in range, so each is stored as written; in
    particular 4 and 3 fit 32 bits and 1016, 1023, 760, 767, 96, 100 fit 64
    bits. *)
Theorem hints_values_in_range
    (i : nat) (ds : list member_init) (r : devhint_t) :
  hints_src !! i = Some ds → hints !! i = Some r →
  (is_uint32 (irq r)
   ∧ Forall is_uint64 (iomem r) ∧ Forall is_uint64 (ioport r)) ∧
  ((∃ v, written_irq ds = Some v ∧ is_uint32 v ∧ irq r = v)
   ∧ Forall is_uint64 (written_iomem ds)
   ∧ Forall is_uint64 (written_ioport ds)) ∧
  (Forall is_uint32 [4; 3]
   ∧ Forall is_uint64 [1016; 1023; 760; 767; 96; 100]).
Proof.
  intros Hs Hr. pose proof (hints_lookup _ _ _ Hs Hr) as Hb.
  split; [|split].
  - split; [exact (struct_init_irq _ _ Hb)|]. split.
    + exact (array_init_uint64 _ _ _ (struct_init_iomem _ _ Hb)).
    + exact (array_init_uint64 _ _ _ (struct_init_ioport _ _ Hb)).
  - clear Hb. rewrite hints_value in Hr.
    table_cases i;
      (split; [eexists; split; [reflexivity|split; [by_eval|reflexivity]]|]);
      split; by_eval.
  - split; by_eval.
Qed.

Lemma hints_values_in_range_witness :
  hints_src !! 0%nat
    = Some [ init_iomem [1016; 1023; 760; 767]; init_irq 4;
             init_path "/rootdev/pci@0/isab@0/isa@0/uart@0" ] ∧
  hints !! 0%nat = Some spec_record1 ∧
  (is_uint32 (irq spec_record1)
   ∧ Forall is_uint64 (iomem spec_record1)
   ∧ Forall is_uint64 (ioport spec_record1)) ∧
  ((∃ v, Some 4 = Some v ∧ is_uint32 v ∧ irq spec_record1 = v)
   ∧ Forall is_uint64 [1016; 1023; 760; 767]
   ∧ Forall is_uint64 []) ∧
  (Forall is_uint32 [4; 3]
   ∧ Forall is_uint64 [1016; 1023; 760; 767; 96; 100]).
Proof.
  split; [reflexivity|]. split; [reflexivity|].
  exact (hints_values_in_range 0 _ spec_record1 eq_refl eq_refl).
Defined.

(** C9: in every record of [hints] every real range (start, end) of iomem
    and of ioport has start <= end; the real ranges are the pairs the
    source writes, which are the pairs of the array before its padding, and
    each is one of (1016,1023), (760,767), (96,96), (100,100). *)
Theorem hints_ranges_wf (i : nat) (ds : list member_init) (r : devhint_t) :
  hints_src !! i = Some ds → hints !! i = Some r →
  (Forall range_wf (ranges (iomem r))
   ∧ Forall range_wf (ranges (ioport r))) ∧
  (ranges (iomem r) = pairs (written_iomem ds)
   ∧ ranges (ioport r) = pairs (written_ioport ds)) ∧
  ranges (iomem r) ++ ranges (ioport r)
    ⊆ [(1016, 1023); (760, 767); (96, 96); (100, 100)].
Proof.
  intros Hs Hr. rewrite hints_value in Hr.
  table_cases i; (split; [split; by_eval|split; [by split|]]).
  - by_eval.
  - by_eval.
Qed.

Lemma hints_ranges_wf_witness :
  hints_src !! 1%nat
    = Some [ init_ioport [96; 96; 100; 100]; init_iomem [760; 767];
             init_irq 3;
             init_path "/rootdev/pci@0/isab@0/isa@0/uart@1" ] ∧
  hints !! 1%nat = Some spec_record2 ∧
  (Forall range_wf (ranges (iomem spec_record2))
   ∧ Forall range_wf (ranges (ioport spec_record2))) ∧
  (ranges (iomem spec_record2) = pairs [760; 767]
   ∧ ranges (ioport spec_record2) = pairs [96; 96; 100; 100]) ∧
  ranges (iomem spec_record2) ++ ranges (ioport spec_record2)
    ⊆ [(1016, 1023); (760, 767); (96, 96); (100, 100)].
Proof.
  split; [reflexivity|]. split; [reflexivity|].
  exact (hints_ranges_wf 1 _ spec_record2 eq_refl eq_refl).
Defined.

(** C10: the iomem ranges of distinct records are not disjoint: (760,767)
    is the second iomem range of the first record (uart@0) and the only
    iomem range of the second record (uart@1), the two records differ, and
    the range overlaps itself. *)
Theorem hints_iomem_overlap :
  ∃ r1 r2,
    hints !! 0%nat = Some r1 ∧ hints !! 1%nat = Some r2 ∧
    path r1 = Some "/rootdev/pci@0/isab@0/isa@0/uart@0"%string ∧
    path r2 = Some "/rootdev/pci@0/isab@0/isa@0/uart@1"%string ∧
    r1 ≠ r2 ∧
    ranges (iomem r1) !! 1%nat = Some (760, 767) ∧
    ranges (iomem r2) = [(760, 767)] ∧
    range_overlap (760, 767) (760, 767) = true ∧
    ¬ iomem_disjoint r1 r2.
Proof.
  exists spec_record1, spec_record2.
  split; [by rewrite hints_value|]. split; [by rewrite hints_value|].
  repeat split; [discriminate|].
  intros Hd. specialize (Hd (760, 767) (760, 767)).
  change (ranges (iomem spec_record1)) with [(1016, 1023); (760, 767)] in Hd.
  change (ranges (iomem spec_record2)) with [(760, 767)] in Hd.
  assert (range_overlap (760, 767) (760, 767) = false) as Hf
    by (apply Hd; by_eval).
  discriminate Hf.
Qed.

(** * Further properties of initialization and of the table *)

(** ** The shape of a built table *)

Lemma table_init_lookup src t i r :
  table_init src = Some t → t !! i = Some r →
  ∃ ds, src !! i = Some ds ∧ struct_init ds = Some r.
Proof.
  intros Hb Hr. apply mapM_Some in Hb.
  destruct (Forall2_lookup_r _ _ _ _ _ Hb Hr) as (ds & Hs & Hd). eauto.
Qed.

(** X2: whatever initializer list the table is built from, it has one
    element per brace-enclosed initializer, and in every element both array
    members have exactly 32 unsigned 64-bit slots and irq is an unsigned
    32-bit value. *)
Theorem table_init_shape (src : list (list member_init)) (t : list devhint_t) :
  table_init src = Some t →
  length t = length src ∧
  Forall (λ r, (length (iomem r) = RANGE_SLOTS ∧ Forall is_uint64 (iomem r))
             ∧ (length (ioport r) = RANGE_SLOTS ∧ Forall is_uint64 (ioport r))
             ∧ is_uint32 (irq r)) t.
Proof.
  intros Hb. split; [symmetry; exact (length_mapM _ _ _ Hb)|].
  apply Forall_lookup. intros i r Hr.
  destruct (table_init_lookup _ _ _ _ Hb Hr) as (ds & _ & Hd).
  pose proof (struct_init_iomem _ _ Hd) as Hm.
  pose proof (struct_init_ioport _ _ Hd) as Hp.
  split; [split|split; [split|]].
  - exact (array_init_length _ _ _ Hm).
  - exact (array_init_uint64 _ _ _ Hm).
  - exact (array_init_length _ _ _ Hp).
  - exact (array_init_uint64 _ _ _ Hp).
  - exact (struct_init_irq _ _ Hd).
Qed.

Lemma table_init_shape_witness :
  table_init hints_src = Some hints ∧
  length hints = length hints_src ∧
  Forall (λ r, (length (iomem r) = RANGE_SLOTS ∧ Forall is_uint64 (iomem r))
             ∧ (length (ioport r) = RANGE_SLOTS
                ∧ Forall is_uint64 (ioport r))
             ∧ is_uint32 (irq r)) hints.
Proof.
  split; [reflexivity|]. exact (table_init_shape hints_src hints eq_refl).
Defined.

(** Designators of two different members commute. *)
Lemma members_apply_swap d1 d2 ds r :
  member_of d1 ≠ member_of d2 →
  members_apply r (d1 :: d2 :: ds) = members_apply r (d2 :: d1 :: ds).
Proof.
  intros Hne.
  destruct d1 as [v1|v1|v1|s1], d2 as [v2|v2|v2|s2]; simpl in *;
    try congruence;
    repeat match goal with
           | |- context [array_init ?n ?v] => destruct (array_init n v); simpl
           end; done.
Qed.

Lemma members_apply_perm ds ds' :
  ds ≡ₚ ds' → NoDup (member_of <$> ds) →
  ∀ r, members_apply r ds = members_apply r ds'.
Proof.
  induction 1 as [|d l l' Hl IH|d1 d2 l|l l' l'' H1 IH1 H2 IH2];
    intros Hnd r.
  - done.
  - rewrite fmap_cons in Hnd. apply NoDup_cons in Hnd as [_ Hnd].
    simpl. destruct (member_apply r d); simpl; auto.
  - apply members_apply_swap.
    rewrite !fmap_cons in Hnd. apply NoDup_cons in Hnd as [Hin _].
    intros Heq. apply Hin. rewrite Heq. left.
  - rewrite IH1 by done. apply IH2. by rewrite <- H1.
Qed.

(** X3: the order of the designators of an element is immaterial when
    each names a different member, as in the source, whose two elements list
    their members in different orders. *)
Theorem struct_init_order (ds ds' : list member_init) :
  ds ≡ₚ ds' → NoDup (member_of <$> ds) → struct_init ds = struct_init ds'.
Proof. intros Hp Hnd. by apply members_apply_perm. Qed.

Lemma struct_init_order_witness :
  [ init_ioport [96; 96; 100; 100]; init_iomem [760; 767]; init_irq 3;
    init_path "/rootdev/pci@0/isab@0/isa@0/uart@1" ]
  ≡ₚ [ init_path "/rootdev/pci@0/isab@0/isa@0/uart@1"; init_irq 3;
       init_iomem [760; 767]; init_ioport [96; 96; 100; 100] ] ∧
  NoDup [m_ioport; m_iomem; m_irq; m_path] ∧
  struct_init
    [ init_ioport [96; 96; 100; 100]; init_iomem [760; 767]; init_irq 3;
      init_path "/rootdev/pci@0/isab@0/isa@0/uart@1" ]
  = struct_init
      [ init_path "/rootdev/pci@0/isab@0/isa@0/uart@1"; init_irq 3;
        init_iomem [760; 767]; init_ioport [96; 96; 100; 100] ].
Proof.
  assert ([ init_ioport [96; 96; 100; 100]; init_iomem [760; 767];
            init_irq 3; init_path "/rootdev/pci@0/isab@0/isa@0/uart@1" ]
          ≡ₚ [ init_path "/rootdev/pci@0/isab@0/isa@0/uart@1"; init_irq 3;
               init_iomem [760; 767]; init_ioport [96; 96; 100; 100] ])
    as Hperm by (symmetry; apply (reverse_Permutation [_; _; _; _])).
  assert (NoDup [m_ioport; m_iomem; m_irq; m_path]) as Hnd by by_eval.
  split; [exact Hperm|]. split; [exact Hnd|].
  exact (struct_init_order _ _ Hperm Hnd).
Defined.

(** *** Reading the written constants back *)

Lemma used_zeros k : used (replicate k 0) = [].
Proof. induction k as [|k IH]; simpl; [done|]. by rewrite IH. Qed.

Lemma used_app_zeros l k : used (l ++ replicate k 0) = used l.
Proof.
  induction l as [|v l IH]; simpl; [apply used_zeros|]. by rewrite IH.
Qed.

Lemma used_id l : last l ≠ Some 0 → used l = l.
Proof.
  induction l as [|v [|w l] IH]; intros Hl; [done| |].
  - simpl in *. case_bool_decide; congruence.
  - change (used (v :: w :: l))
      with (match used (w :: l) with
            | [] => if bool_decide (v = 0) then [] else [v]
            | u => v :: u
            end).
    rewrite IH; [done|]. exact Hl.
Qed.

Lemma fmap_to_uint64_id vs : Forall is_uint64 vs → to_uint64 <$> vs = vs.
Proof.
  intros Hv. rewrite <- (list_fmap_id vs) at 2.
  apply Forall_fmap_ext. eapply Forall_impl; [exact Hv|].
  intros v Hr. by apply to_uint64_id.
Qed.

Lemma array_init_used n vs a :
  array_init n vs = Some a → Forall is_uint64 vs → last vs ≠ Some 0 →
  used a = vs.
Proof.
  intros Ha Hv Hl. rewrite (array_init_eq _ _ _ Ha).
  rewrite used_app_zeros, (fmap_to_uint64_id _ Hv). by apply used_id.
Qed.

(** X4: the constants written into an array member are read back from
    the built array as its scalars up to the last non-zero one, when they
    fit 64 bits and the last written constant is not zero (none written
    included). *)
Theorem struct_init_read_back (ds : list member_init) (r : devhint_t) :
  struct_init ds = Some r →
  Forall is_uint64 (written_iomem ds ++ written_ioport ds) →
  last (written_iomem ds) ≠ Some 0 → last (written_ioport ds) ≠ Some 0 →
  used (iomem r) = written_iomem ds ∧ used (ioport r) = written_ioport ds.
Proof.
  intros Hd Hv Hm Hp. apply Forall_app in Hv as [Hvm Hvp]. split.
  - exact (array_init_used _ _ _ (struct_init_iomem _ _ Hd) Hvm Hm).
  - exact (array_init_used _ _ _ (struct_init_ioport _ _ Hd) Hvp Hp).
Qed.

Lemma struct_init_read_back_witness :
  struct_init
    [ init_ioport [96; 96; 100; 100]; init_iomem [760; 767]; init_irq 3;
      init_path "/rootdev/pci@0/isab@0/isa@0/uart@1" ]
  = Some spec_record2 ∧
  Forall is_uint64 ([760; 767] ++ [96; 96; 100; 100]) ∧
  last [760; 767] ≠ Some 0 ∧ last [96; 96; 100; 100] ≠ Some 0 ∧
  used (iomem spec_record2) = [760; 767] ∧
  used (ioport spec_record2) = [96; 96; 100; 100].
Proof.
  assert (Forall is_uint64 ([760; 767] ++ [96; 96; 100; 100])) as Hv
    by by_eval.
  assert (last [760; 767] ≠ Some 0) as Hm by discriminate.
  assert (last [96; 96; 100; 100] ≠ Some 0) as Hp by discriminate.
  split; [reflexivity|]. split; [exact Hv|].
  split; [exact Hm|]. split; [exact Hp|].
  exact (struct_init_read_back
           [ init_ioport [96; 96; 100; 100]; init_iomem [760; 767];
             init_irq 3;
             init_path "/rootdev/pci@0/isab@0/isa@0/uart@1" ]
           spec_record2 eq_refl Hv Hm Hp).
Defined.

(** *** Decoding the written ranges *)

Lemma pairs_app_half k : ∀ l l' : list Z,
  length l = (2 * k)%nat → pairs (l ++ l') = pairs l ++ pairs l'.
Proof.
  induction k as [|k IH]; intros l l' Hl.
  - by destruct l.
  - destruct l as [|x [|y l]]; simpl in Hl; try lia.
    change (pairs ((x :: y :: l) ++ l')) with ((x, y) :: pairs (l ++ l')).
    rewrite (IH l l') by lia. done.
Qed.

Lemma pairs_zeros_both k :
  Forall (λ p, is_padding p = true) (pairs (replicate k 0))
  ∧ Forall (λ p, is_padding p = true) (pairs (replicate (S k) 0)).
Proof.
  induction k as [|k [IH1 IH2]]; [split; constructor|].
  split; [done|].
  change (pairs (replicate (S (S k)) 0)) with ((0, 0) :: pairs (replicate k 0)).
  by constructor.
Qed.

Lemma strip_padding_zeros zs :
  Forall (λ p, is_padding p = true) zs → strip_padding zs = [].
Proof.
  induction 1 as [|p zs Hp _ IH]; simpl; [done|]. by rewrite IH, Hp.
Qed.

Lemma strip_padding_app_zeros ps zs :
  Forall (λ p, is_padding p = true) zs →
  strip_padding (ps ++ zs) = strip_padding ps.
Proof.
  intros Hz. induction ps as [|p ps IH]; simpl.
  - by apply strip_padding_zeros.
  - by rewrite IH.
Qed.

Lemma strip_padding_id ps : last ps ≠ Some (0, 0) → strip_padding ps = ps.
Proof.
  induction ps as [|p [|q ps] IH]; intros Hl; [done| |].
  - simpl in *. unfold is_padding.
    case_bool_decide as Hz; [subst p; by destruct Hl | done].
  - change (strip_padding (p :: q :: ps))
      with (match strip_padding (q :: ps) with
            | [] => if is_padding p then [] else [p]
            | u => p :: u
            end).
    rewrite IH; [done|]. exact Hl.
Qed.

Lemma array_init_ranges n vs a :
  array_init n vs = Some a → Forall is_uint64 vs →
  Nat.Even (length vs) → last (pairs vs) ≠ Some (0, 0) →
  ranges a = pairs vs.
Proof.
  intros Ha Hv [k Hk] Hl. rewrite (array_init_eq _ _ _ Ha).
  rewrite (fmap_to_uint64_id _ Hv). unfold ranges.
  rewrite (pairs_app_half k) by done.
  rewrite strip_padding_app_zeros by apply pairs_zeros_both.
  by apply strip_padding_id.
Qed.

(** X5: the ranges decoded from a built array member, its pairs before
    the zero padding, are exactly the pairs the initializer writes, when
    the constants fit 64 bits, come in whole pairs, and the last written
    pair is not (0,0). *)
Theorem struct_init_ranges (ds : list member_init) (r : devhint_t) :
  struct_init ds = Some r →
  Forall is_uint64 (written_iomem ds ++ written_ioport ds) →
  Nat.Even (length (written_iomem ds)) →
  Nat.Even (length (written_ioport ds)) →
  last (pairs (written_iomem ds)) ≠ Some (0, 0) →
  last (pairs (written_ioport ds)) ≠ Some (0, 0) →
  ranges (iomem r) = pairs (written_iomem ds)
  ∧ ranges (ioport r) = pairs (written_ioport ds).
Proof.
  intros Hd Hv Em Ep Hm Hp. apply Forall_app in Hv as [Hvm Hvp]. split.
  - exact (array_init_ranges _ _ _ (struct_init_iomem _ _ Hd) Hvm Em Hm).
  - exact (array_init_ranges _ _ _ (struct_init_ioport _ _ Hd) Hvp Ep Hp).
Qed.

Lemma struct_init_ranges_witness :
  struct_init
    [ init_ioport [96; 96; 100; 100]; init_iomem [760; 767]; init_irq 3;
      init_path "/rootdev/pci@0/isab@0/isa@0/uart@1" ]
  = Some spec_record2 ∧
  Forall is_uint64 ([760; 767] ++ [96; 96; 100; 100]) ∧
  Nat.Even (length [760; 767]) ∧ Nat.Even (length [96; 96; 100; 100]) ∧
  last (pairs [760; 767]) ≠ Some (0, 0) ∧
  last (pairs [96; 96; 100; 100]) ≠ Some (0, 0) ∧
  ranges (iomem spec_record2) = pairs [760; 767] ∧
  ranges (ioport spec_record2) = pairs [96; 96; 100; 100].
Proof.
  assert (Forall is_uint64 ([760; 767] ++ [96; 96; 100; 100])) as Hv
    by by_eval.
  assert (Nat.Even (length [760; 767])) as Em by (by exists 1%nat).
  assert (Nat.Even (length [96; 96; 100; 100])) as Ep by (by exists 2%nat).
  assert (last (pairs [760; 767]) ≠ Some (0, 0)) as Hm by discriminate.
  assert (last (pairs [96; 96; 100; 100]) ≠ Some (0, 0)) as Hp
    by discriminate.
  split; [reflexivity|]. split; [exact Hv|].
  split; [exact Em|]. split; [exact Ep|].
  split; [exact Hm|]. split; [exact Hp|].
  exact (struct_init_ranges
           [ init_ioport [96; 96; 100; 100]; init_iomem [760; 767];
             init_irq 3;
             init_path "/rootdev/pci@0/isab@0/isa@0/uart@1" ]
           spec_record2 eq_refl Hv Em Ep Hm Hp).
Defined.

Lemma array_init_explicit_zeros n vs k :
  (length vs + k ≤ n)%nat →
  array_init n (vs ++ replicate k 0) = array_init n vs.
Proof.
  intros Hk. unfold array_init.
  rewrite length_app, length_replicate.
  repeat case_decide; try lia. f_equal.
  rewrite fmap_app, fmap_replicate, <- app_assoc, <- replicate_add.
  change (to_uint64 0) with 0. do 2 f_equal. lia.
Qed.

(** X6: zeros written at the end of an array initializer build the same
    member as leaving them out: a trailing (0,0) range cannot be told from
    padding in the built object. *)
Theorem explicit_zeros_are_padding
    (r : devhint_t) (vs : list Z) (k : nat) :
  (length vs + k ≤ RANGE_SLOTS)%nat →
  member_apply r (init_iomem (vs ++ replicate k 0))
    = member_apply r (init_iomem vs)
  ∧ member_apply r (init_ioport (vs ++ replicate k 0))
    = member_apply r (init_ioport vs).
Proof.
  intros Hk. simpl. by rewrite array_init_explicit_zeros.
Qed.

Lemma explicit_zeros_are_padding_witness :
  (length [760; 767] + 2 ≤ RANGE_SLOTS)%nat ∧
  member_apply devhint_zero (init_iomem ([760; 767] ++ replicate 2 0))
    = member_apply devhint_zero (init_iomem [760; 767])
  ∧ member_apply devhint_zero (init_ioport ([760; 767] ++ replicate 2 0))
    = member_apply devhint_zero (init_ioport [760; 767]).
Proof.
  assert (length [760; 767] + 2 ≤ RANGE_SLOTS)%nat as Hk
    by (unfold RANGE_SLOTS; simpl; lia).
  split; [exact Hk|].
  exact (explicit_zeros_are_padding devhint_zero [760; 767] 2 Hk).
Defined.

Lemma is_Some_bind_Some {A B} (o : option A) (g : A → B) :
  is_Some (x ← o; Some (g x)) ↔ is_Some o.
Proof.
  destruct o as [x|]; simpl.
  - split; intros _; eexists; reflexivity.
  - split; intros [? ?]; discriminate.
Qed.

Lemma load_member_is_Some (t : list devhint_t) (i j : nat)
    (f : devhint_t → list Z) :
  Forall (λ r, length (f r) = RANGE_SLOTS) t →
  is_Some (r ← t !! i; v ← f r !! j; Some (rv_u64 v))
  ↔ (i < length t)%nat ∧ (j < RANGE_SLOTS)%nat.
Proof.
  intros Hlen. rewrite <- lookup_lt_is_Some.
  destruct (t !! i) as [r|] eqn:Hr; simpl.
  - rewrite Forall_lookup in Hlen. rewrite <- (Hlen _ _ Hr).
    rewrite <- lookup_lt_is_Some.
    destruct (f r !! j); simpl.
    + split; intros _; [split|]; eauto.
    + split; [by intros [? ?] | by intros [_ [? ?]]].
  - split; [by intros [? ?] | by intros [[? ?] _]].
Qed.

(** X7: in a built table a read designates an object exactly when the
    element index is below the number of initializers and, for an array
    member, the slot index is below 32. *)
Theorem load_bounds
    (src : list (list member_init)) (t : list devhint_t) (i j : nat) :
  table_init src = Some t →
  (is_Some (load t (lv_elem i)) ↔ (i < length src)%nat) ∧
  (is_Some (load t (lv_path i)) ↔ (i < length src)%nat) ∧
  (is_Some (load t (lv_irq i)) ↔ (i < length src)%nat) ∧
  (is_Some (load t (lv_iomem i j))
   ↔ (i < length src)%nat ∧ (j < RANGE_SLOTS)%nat) ∧
  (is_Some (load t (lv_ioport i j))
   ↔ (i < length src)%nat ∧ (j < RANGE_SLOTS)%nat).
Proof.
  intros Hb. destruct (table_init_shape _ _ Hb) as [Hlen Hshape].
  rewrite <- Hlen. simpl.
  split; [|split; [|split; [|split]]].
  - rewrite <- lookup_lt_is_Some. apply is_Some_bind_Some.
  - rewrite <- lookup_lt_is_Some. apply is_Some_bind_Some.
  - rewrite <- lookup_lt_is_Some. apply is_Some_bind_Some.
  - apply load_member_is_Some. eapply Forall_impl; [exact Hshape|].
    by intros r [[? _] _].
  - apply load_member_is_Some. eapply Forall_impl; [exact Hshape|].
    by intros r (_ & [? _] & _).
Qed.

Lemma load_bounds_witness :
  table_init hints_src = Some hints ∧
  (is_Some (load hints (lv_elem 1)) ↔ (1 < length hints_src)%nat) ∧
  (is_Some (load hints (lv_path 1)) ↔ (1 < length hints_src)%nat) ∧
  (is_Some (load hints (lv_irq 1)) ↔ (1 < length hints_src)%nat) ∧
  (is_Some (load hints (lv_iomem 1 32))
   ↔ (1 < length hints_src)%nat ∧ (32 < RANGE_SLOTS)%nat) ∧
  (is_Some (load hints (lv_ioport 1 32))
   ↔ (1 < length hints_src)%nat ∧ (32 < RANGE_SLOTS)%nat).
Proof.
  split; [reflexivity|]. exact (load_bounds hints_src hints 1 32 eq_refl).
Defined.

(** X8: within one record of [hints], two real ranges of the same member
    at different positions share no address (the overlaps of the table are
    across records only). *)
Theorem hints_ranges_disjoint_within
    (i a b : nat) (r : devhint_t) (p q : range) :
  hints !! i = Some r → a ≠ b →
  (ranges (iomem r) !! a = Some p → ranges (iomem r) !! b = Some q →
   range_overlap p q = false) ∧
  (ranges (ioport r) !! a = Some p → ranges (ioport r) !! b = Some q →
   range_overlap p q = false).
Proof.
  rewrite hints_value. intros Hr Hab.
  table_cases i; split; intros Ha Hb;
    change (ranges (iomem spec_record1))
      with [(1016, 1023); (760, 767)] in *;
    change (ranges (ioport spec_record1)) with (@nil range) in *;
    change (ranges (iomem spec_record2)) with [(760, 767)] in *;
    change (ranges (ioport spec_record2)) with [(96, 96); (100, 100)] in *;
    destruct a as [|[|a]], b as [|[|b]]; simplify_eq/=; done.
Qed.

Lemma hints_ranges_disjoint_within_witness :
  hints !! 0%nat = Some spec_record1 ∧ 0%nat ≠ 1%nat ∧
  (ranges (iomem spec_record1) !! 0%nat = Some (1016, 1023) →
   ranges (iomem spec_record1) !! 1%nat = Some (760, 767) →
   range_overlap (1016, 1023) (760, 767) = false) ∧
  (ranges (ioport spec_record1) !! 0%nat = Some (1016, 1023) →
   ranges (ioport spec_record1) !! 1%nat = Some (760, 767) →
   range_overlap (1016, 1023) (760, 767) = false).
Proof.
  assert (0%nat ≠ 1%nat) as Hne by discriminate.
  split; [reflexivity|]. split; [exact Hne|].
  exact (hints_ranges_disjoint_within 0 0 1 spec_record1
           (1016, 1023) (760, 767) eq_refl Hne).
Defined.

(** X9: no record of [hints] has irq 0, and records at distinct indices
    have different irq values. *)
Theorem hints_irq_key (i j : nat) (ri rj : devhint_t) :
  hints !! i = Some ri → hints !! j = Some rj →
  irq ri ≠ 0 ∧ (i ≠ j → irq ri ≠ irq rj).
Proof.
  rewrite hints_value. intros Hi Hj.
  table_cases i; table_cases j; split; done.
Qed.

Lemma hints_irq_key_witness :
  hints !! 0%nat = Some spec_record1 ∧ hints !! 1%nat = Some spec_record2 ∧
  irq spec_record1 ≠ 0 ∧
  (0%nat ≠ 1%nat → irq spec_record1 ≠ irq spec_record2).
Proof.
  split; [reflexivity|]. split; [reflexivity|].
  exact (hints_irq_key 0 1 spec_record1 spec_record2 eq_refl eq_refl).
Defined.
